(** * The [_RCT_FOLLY_PREFIX_PCH] guard of [debug_string_convertible_patch.h]

    The repository's one source file documents a patch to React Native's
    [DebugStringConvertible.cpp]: the explicit specialization
    [std::char_traits<unsigned char>] is wrapped in
    [#ifndef _RCT_FOLLY_PREFIX_PCH ... #endif].

    The two code blocks of the file are embedded line by line as strings.
    What the blocks mean is given by the conditional-inclusion part of the
    C preprocessor, embedded here as an executable function: comments are
    removed, each line is classified as a directive or as text, and the
    directives are run against a macro table (a [gmap] from names to
    replacement texts) and a stack of open conditionals.  The result of a
    file is the list of its text lines that survive, as they are written.
    Beside it, [run_replaced] gives the same lines after replacement of
    object-like macros, as token lists.

    The fragment: text lines; [#if] and [#elif] with a condition that is an
    integer literal, a [defined] test or a name that is no macro, possibly
    under [!]; [#ifdef], [#ifndef], [#elifdef], [#elifndef], [#else],
    [#endif]; [#define] and [#undef] of object-like macros; [#pragma once].
    A file that needs anything else where it is live (another condition, a
    function-like macro, [#include], [#error]) is rejected with [None];
    in a group that is skipped such lines are passed over, and conditionals
    are still counted.  A file with a block comment or with a line that ends
    in a backslash is rejected wherever that line stands. *)

From Stdlib Require Import Ascii String List Bool Arith Lia.
From stdpp Require Import base option list gmap strings.
Import ListNotations.

Local Open Scope string_scope.

(** ** The two code blocks of the source file *)

Module Source.

(** Lines 8-19 of [debug_string_convertible_patch.h]: the original code. *)
Definition original_code : list string :=
  [ "namespace std {"
  ; "template<>"
  ; "struct char_traits<unsigned char> {"
  ; "  using char_type = unsigned char;"
  ; "  using int_type = int;"
  ; "  using off_type = streamoff;"
  ; "  using pos_type = streampos;"
  ; "  using state_type = mbstate_t;"
  ; EmptyString
  ; "  // ... implementation details ..."
  ; "};"
  ; "} // namespace std" ].

(** Lines 25-39 of [debug_string_convertible_patch.h]: the patched code. *)
Definition patched_code : list string :=
  [ "// char_traits<unsigned char> is now defined in the prefix header"
  ; "#ifndef _RCT_FOLLY_PREFIX_PCH"
  ; "namespace std {"
  ; "template<>"
  ; "struct char_traits<unsigned char> {"
  ; "  using char_type = unsigned char;"
  ; "  using int_type = int;"
  ; "  using off_type = streamoff;"
  ; "  using pos_type = streampos;"
  ; "  using state_type = mbstate_t;"
  ; EmptyString
  ; "  // ... implementation details ..."
  ; "};"
  ; "} // namespace std"
  ; "#endif // _RCT_FOLLY_PREFIX_PCH" ].

(** The guard symbol tested on line 26. *)
Definition guard_symbol : string := "_RCT_FOLLY_PREFIX_PCH".

End Source.

(** ** Lexical layer: comments, blanks, directive lines *)

Module Lex.

Definition is_space (c : ascii) : bool :=
  (Ascii.eqb c " " || Ascii.eqb c "009")%char.

Definition is_ident_char (c : ascii) : bool :=
  let n := nat_of_ascii c in
  (Nat.leb 65 n && Nat.leb n 90) || (Nat.leb 97 n && Nat.leb n 122)
  || (Nat.leb 48 n && Nat.leb n 57) || Nat.eqb n 95.

Definition is_digit (c : ascii) : bool :=
  let n := nat_of_ascii c in Nat.leb 48 n && Nat.leb n 57.

(** Drops a [//] comment: everything from the first [//] to the end of the
    line.  The source file has no string literal, no block comment and no
    line ending in a backslash. *)
Fixpoint strip_comment (s : string) : string :=
  match s with
  | String "/" (String "/" _) => EmptyString
  | String c rest => String c (strip_comment rest)
  | EmptyString => EmptyString
  end.

Fixpoint trim_left (s : string) : string :=
  match s with
  | String c rest => if is_space c then trim_left rest else s
  | EmptyString => EmptyString
  end.

Fixpoint trim_right (s : string) : string :=
  match s with
  | String c rest =>
      match trim_right rest with
      | EmptyString => if is_space c then EmptyString else String c EmptyString
      | r => String c r
      end
  | EmptyString => EmptyString
  end.

Definition trim (s : string) : string := trim_left (trim_right s).

(** Splits off the longest prefix of identifier characters. *)
Fixpoint span_ident (s : string) : string * string :=
  match s with
  | String c rest =>
      if is_ident_char c
      then let '(w, r) := span_ident rest in (String c w, r)
      else (EmptyString, s)
  | EmptyString => (EmptyString, EmptyString)
  end.

(** A logical source line after comment removal. *)
Inductive line : Type :=
  | LBlank                              (* nothing but blanks and comments *)
  | LText (code : string)               (* ordinary program text *)
  | LIf (expr : string)                 (* also a conditional with no operand *)
  | LIfdef (name : string)
  | LIfndef (name : string)
  | LElif (expr : string)
  | LElifdef (name : string)
  | LElifndef (name : string)
  | LElse
  | LEndif
  | LDefine (name body : string)
  | LUndef (name : string)
  | LPragmaOnce
  | LOther (text : string)              (* any other or malformed directive *)
  | LUnsupported (text : string).       (* not readable line by line *)

(** *** Tokens of a text line *)

Inductive token : Type :=
  | TIdent (name : string)
  | TNumber (text : string)             (* a preprocessing number *)
  | TLiteral (text : string)            (* string or character literal *)
  | TPunct (c : ascii).                 (* any other character, blanks too *)

Definition is_quote (c : ascii) : bool :=
  (Ascii.eqb c "034" || Ascii.eqb c "'")%char.

Definition is_exponent (c : ascii) : bool :=
  (Ascii.eqb c "e" || Ascii.eqb c "E" || Ascii.eqb c "p" || Ascii.eqb c "P")%char.

Definition is_sign (c : ascii) : bool :=
  (Ascii.eqb c "+" || Ascii.eqb c "-")%char.

Definition snoc (s : string) (c : ascii) : string :=
  String.append s (String c EmptyString).

(** What the scanner is in the middle of. *)
Inductive lex_mode : Type :=
  | InNone
  | InIdent (acc : string)
  | InNumber (acc : string) (last : ascii)
  | InLiteral (quote : ascii) (acc : string) (escaped : bool).

Definition flush (mode : lex_mode) : list token :=
  match mode with
  | InNone => []
  | InIdent acc => [TIdent acc]
  | InNumber acc _ => [TNumber acc]
  | InLiteral _ acc _ => [TLiteral acc]
  end.

(** The mode a character opens, or the one-character token it is. *)
Definition open_token (c : ascii) : lex_mode + token :=
  if is_digit c then inl (InNumber (String c EmptyString) c)
  else if is_ident_char c then inl (InIdent (String c EmptyString))
  else if is_quote c then inl (InLiteral c (String c EmptyString) false)
  else inr (TPunct c).

Fixpoint scan (mode : lex_mode) (s : string) : list token :=
  match s with
  | EmptyString => flush mode
  | String c rest =>
      let fresh (_ : unit) :=
        match open_token c with
        | inl mode' => scan mode' rest
        | inr t => t :: scan InNone rest
        end in
      match mode with
      | InNone => fresh tt
      | InIdent acc =>
          if is_ident_char c then scan (InIdent (snoc acc c)) rest
          else TIdent acc :: fresh tt
      | InNumber acc last =>
          if is_ident_char c || Ascii.eqb c "."%char
             || (is_sign c && is_exponent last)
          then scan (InNumber (snoc acc c) c) rest
          else TNumber acc :: fresh tt
      | InLiteral q acc escaped =>
          if escaped then scan (InLiteral q (snoc acc c) false) rest
          else if Ascii.eqb c "092"%char then scan (InLiteral q (snoc acc c) true) rest
          else if Ascii.eqb c q then TLiteral (snoc acc c) :: scan InNone rest
          else scan (InLiteral q (snoc acc c) false) rest
      end
  end.

Definition tokens (s : string) : list token := scan InNone s.

Definition is_blank_token (t : token) : bool :=
  match t with TPunct c => is_space c | _ => false end.

(** A macro name: identifier characters, the first one no digit. *)
Definition valid_name (x : string) : bool :=
  match x with
  | String c _ => negb (is_digit c)
  | EmptyString => false
  end.

(** A conditional directive without a proper operand is kept as a
    conditional with an empty condition: it still nests, and it is an error
    where its condition would be evaluated. *)
Definition parse_directive (whole after_hash : string) : line :=
  let '(kw, args) := span_ident (trim_left after_hash) in
  let args := trim_left args in
  let '(name, rest) := span_ident args in
  if String.eqb kw "ifndef" then
    (if valid_name name then LIfndef name else LIf EmptyString)
  else if String.eqb kw "ifdef" then
    (if valid_name name then LIfdef name else LIf EmptyString)
  else if String.eqb kw "if" then LIf args
  else if String.eqb kw "elif" then LElif args
  else if String.eqb kw "elifdef" then
    (if valid_name name then LElifdef name else LElif EmptyString)
  else if String.eqb kw "elifndef" then
    (if valid_name name then LElifndef name else LElif EmptyString)
  else if String.eqb kw "else" then LElse
  else if String.eqb kw "endif" then LEndif
  else if String.eqb kw "define" then
    (if valid_name name
     then match rest with
          | String "(" _ => LOther whole      (* a function-like macro *)
          | _ => LDefine name (trim_left rest)
          end
     else LOther whole)
  else if String.eqb kw "undef" then
    (if valid_name name then LUndef name else LOther whole)
  else if String.eqb kw "pragma" && String.eqb args "once" then LPragmaOnce
  else LOther whole.

Fixpoint has_pair (a b : ascii) (s : string) : bool :=
  match s with
  | String c rest =>
      match rest with
      | String d _ => (Ascii.eqb c a && Ascii.eqb d b) || has_pair a b rest
      | EmptyString => false
      end
  | EmptyString => false
  end.

Fixpoint last_char (s : string) : option ascii :=
  match s with
  | String c EmptyString => Some c
  | String _ rest => last_char rest
  | EmptyString => None
  end.

Definition has_quote (s : string) : bool :=
  existsb is_quote (list_ascii_of_string s).

(** Lines that cannot be read one at a time, or whose [//] may stand inside
    a literal: a block comment opening or closing, a backslash at the end of
    the line, a quote before a [//]. *)
Definition beyond_lines (s : string) : bool :=
  has_pair "/" "*" s || has_pair "*" "/" s
  || match last_char (trim_right s) with
     | Some c => Ascii.eqb c "092"
     | None => false
     end
  || (has_quote (strip_comment s) && negb (String.eqb (strip_comment s) s)).

Definition parse_line (s : string) : line :=
  if beyond_lines s then LUnsupported s
  else
    match trim (strip_comment s) with
    | EmptyString => LBlank
    | String "#" after_hash => parse_directive (String "#" after_hash) after_hash
    | code => LText code
    end.

Definition parse_file (ls : list string) : list line := map parse_line ls.

End Lex.

Export Lex.

(** ** Conditional inclusion *)

Module Cpp.

(** One open conditional: whether its current branch is selected, whether
    its [#else] has been passed, and whether one of its branches so far was
    selected (no later branch is, then). *)
Record frame : Type := Frame
  { taking : bool; else_seen : bool; satisfied : bool }.

(** State while one file is processed. *)
Record pp_state : Type := PP
  { macros : gmap string string      (* the macro table *)
  ; conds : list frame               (* open conditionals, innermost first *)
  ; emitted : list string            (* text lines emitted so far *)
  ; once : bool }.                   (* an active [#pragma once] was met *)

Definition defined (m : gmap string string) (x : string) : bool :=
  match m !! x with Some _ => true | None => false end.

(** A line is live when every enclosing conditional selects it. *)
Definition active (cs : list frame) : bool := forallb taking cs.

(** *** Replacement of object-like macros *)

(** A name under replacement is not replaced again inside its own
    replacement text: the rescan runs with the name taken out of the table.
    The table shrinks by one name at each level, so [S (size m)] levels are
    all there can be. *)
Fixpoint replace_in (fuel : nat) (m : gmap string string) (ts : list token)
  : list token :=
  match fuel with
  | O => ts
  | S fuel' =>
      flat_map
        (fun t =>
           match t with
           | TIdent x =>
               match m !! x with
               | Some body => replace_in fuel' (delete x m) (tokens body)
               | None => [t]
               end
           | _ => [t]
           end) ts
  end.

Definition replace_macros (m : gmap string string) (ts : list token)
  : list token :=
  replace_in (S (size m)) m ts.

(** The names a list of tokens mentions. *)
Definition names_of (ts : list token) : list string :=
  flat_map (fun t => match t with TIdent x => [x] | _ => [] end) ts.

(** *** Conditions of [#if] and [#elif] *)

Definition is_octal_digit (c : ascii) : bool :=
  let n := nat_of_ascii c in Nat.leb 48 n && Nat.leb n 55.

(** A decimal literal, or an octal one when it starts with 0. *)
Definition all_digits (s : string) : bool :=
  match s with
  | String "0" _ => forallb is_octal_digit (list_ascii_of_string s)
  | _ => forallb is_digit (list_ascii_of_string s)
  end.

Definition some_nonzero (s : string) : bool :=
  existsb (fun c => negb (Ascii.eqb c "0"%char)) (list_ascii_of_string s).

Definition reserved_in_if (x : string) : bool :=
  String.eqb x "defined" || String.eqb x "true" || String.eqb x "false".

(** The conditions the model evaluates: an integer literal of digits, a
    [defined] test with or without parentheses, a name that is no macro
    (it counts as 0), and any of these under [!].  Every other expression
    is outside the fragment: [None]. *)
Fixpoint eval_tokens (m : gmap string string) (ts : list token)
  : option bool :=
  match ts with
  | TPunct "!" :: rest => negb <$> eval_tokens m rest
  | [TNumber n] => if all_digits n then Some (some_nonzero n) else None
  | [TIdent d; TIdent x] =>
      if String.eqb d "defined" then Some (defined m x) else None
  | [TIdent d; TPunct "("; TIdent x; TPunct ")"] =>
      if String.eqb d "defined" then Some (defined m x) else None
  | [TIdent x] =>
      if reserved_in_if x || defined m x then None else Some false
  | _ => None
  end.

Definition eval_if (m : gmap string string) (expr : string) : option bool :=
  eval_tokens m (List.filter (fun t => negb (is_blank_token t)) (tokens expr)).

(** A later branch of the innermost conditional, with its condition [c]
    ([None] when the condition is outside the fragment).  The condition
    counts only when the enclosing group is live and no earlier branch was
    selected. *)
Definition elif_branch (st : pp_state) (c : option bool) : option pp_state :=
  match conds st with
  | Frame _ false s :: cs =>
      if active cs && negb s
      then match c with
           | Some b =>
               Some (PP (macros st) (Frame b false b :: cs) (emitted st) (once st))
           | None => None
           end
      else Some (PP (macros st) (Frame false false true :: cs)
                    (emitted st) (once st))
  | _ => None
  end.

Definition step (st : pp_state) (l : line) : option pp_state :=
  let live := active (conds st) in
  match l with
  | LBlank => Some st
  | LText code =>
      Some (if live
            then PP (macros st) (conds st) (emitted st ++ [code]) (once st)
            else st)
  | LIf expr =>
      if live
      then match eval_if (macros st) expr with
           | Some b =>
               Some (PP (macros st) (Frame b false b :: conds st)
                        (emitted st) (once st))
           | None => None
           end
      else Some (PP (macros st) (Frame false false true :: conds st)
                    (emitted st) (once st))
  | LIfdef x =>
      let b := defined (macros st) x in
      Some (PP (macros st) (Frame b false b :: conds st)
               (emitted st) (once st))
  | LIfndef x =>
      let b := negb (defined (macros st) x) in
      Some (PP (macros st) (Frame b false b :: conds st)
               (emitted st) (once st))
  | LElif expr => elif_branch st (eval_if (macros st) expr)
  | LElifdef x => elif_branch st (Some (defined (macros st) x))
  | LElifndef x => elif_branch st (Some (negb (defined (macros st) x)))
  | LElse =>
      match conds st with
      | Frame _ false s :: cs =>
          Some (PP (macros st) (Frame (negb s) true true :: cs)
                   (emitted st) (once st))
      | _ => None
      end
  | LEndif =>
      match conds st with
      | _ :: cs => Some (PP (macros st) cs (emitted st) (once st))
      | [] => None
      end
  | LDefine x body =>
      Some (if live
            then PP (<[x := body]> (macros st)) (conds st) (emitted st) (once st)
            else st)
  | LUndef x =>
      Some (if live
            then PP (delete x (macros st)) (conds st) (emitted st) (once st)
            else st)
  | LPragmaOnce =>
      Some (if live
            then PP (macros st) (conds st) (emitted st) true
            else st)
  | LOther _ => if live then None else Some st
  | LUnsupported _ => None
  end.

Fixpoint run (st : pp_state) (ls : list line) : option pp_state :=
  match ls with
  | [] => Some st
  | l :: rest =>
      match step st l with
      | Some st' => run st' rest
      | None => None
      end
  end.

(** Result of one file: the macro table it leaves, the text it emits and
    whether it asked to be included once only.  A file whose conditionals do
    not balance, or with a live directive outside the fragment, is an error. *)
Record result : Type := Result
  { r_macros : gmap string string
  ; r_text : list string
  ; r_once : bool }.

Definition preprocess_file (m : gmap string string) (f : list line)
  : option result :=
  match run (PP m [] [] false) f with
  | Some (PP m' [] out o) => Some (Result m' out o)
  | _ => None
  end.

(** The text a file emits under a macro table. *)
Definition emit (m : gmap string string) (f : list line)
  : option (list string) :=
  r_text <$> preprocess_file m f.

(** *** Text after macro replacement *)

(** What a line adds to the output once macros are replaced: a live text
    line gives its tokens, replaced under the table in force at that line. *)
Definition replaced (st : pp_state) (l : line) : list (list token) :=
  match l with
  | LText code =>
      if active (conds st)
      then [replace_macros (macros st) (tokens code)]
      else []
  | _ => []
  end.

(** [run], collecting the replaced text beside the state. *)
Fixpoint run_replaced (st : pp_state) (ls : list line)
  : option (pp_state * list (list token)) :=
  match ls with
  | [] => Some (st, [])
  | l :: rest =>
      match step st l with
      | Some st' =>
          match run_replaced st' rest with
          | Some (st'', out) => Some (st'', (replaced st l ++ out)%list)
          | None => None
          end
      | None => None
      end
  end.

(** The output of a file after macro replacement, one token list a line. *)
Definition cpp_output (m : gmap string string) (f : list line)
  : option (list (list token)) :=
  match run_replaced (PP m [] [] false) f with
  | Some (PP _ [] _ _, out) => Some out
  | _ => None
  end.

(** Lines that are text or blank: they touch neither the macro table nor
    the conditionals. *)
Definition is_plain (l : line) : bool :=
  match l with LText _ | LBlank => true | _ => false end.

Definition plain_text (ls : list line) : list string :=
  flat_map (fun l => match l with LText code => [code] | _ => [] end) ls.

(** *** Files and translation units *)

Record source_file : Type := SourceFile
  { path : string
  ; content : list line }.

Record tu_state : Type := TU
  { tu_macros : gmap string string
  ; tu_once : gset string }.          (* files not to be entered again *)

Definition include (st : tu_state) (f : source_file)
  : option (tu_state * list string) :=
  if decide (path f ∈ tu_once st) then Some (st, [])
  else
    match preprocess_file (tu_macros st) (content f) with
    | Some r =>
        Some (TU (r_macros r)
                 (if r_once r then {[ path f ]} ∪ tu_once st else tu_once st),
              r_text r)
    | None => None
    end.

(** Files included one after the other in one translation unit. *)
Fixpoint translate (st : tu_state) (fs : list source_file)
  : option (tu_state * list string) :=
  match fs with
  | [] => Some (st, [])
  | f :: rest =>
      match include st f with
      | Some (st', out) =>
          match translate st' rest with
          | Some (st'', out') => Some (st'', (out ++ out')%list)
          | None => None
          end
      | None => None
      end
  end.

End Cpp.

Export Cpp.

(** ** The patch as preprocessor input *)

Module Patch.

Definition guard : string := Source.guard_symbol.

Definition original : list line := parse_file Source.original_code.
Definition patched : list line := parse_file Source.patched_code.

(** The program text of the specialization: the code of lines 8-19 (and of
    lines 27-38) once comments and blanks are gone. *)
Definition specialization_text : list string :=
  [ "namespace std {"
  ; "template<>"
  ; "struct char_traits<unsigned char> {"
  ; "using char_type = unsigned char;"
  ; "using int_type = int;"
  ; "using off_type = streamoff;"
  ; "using pos_type = streampos;"
  ; "using state_type = mbstate_t;"
  ; "};"
  ; "}" ].

(** A text line that opens a definition of the specialization. *)
Definition opens_specialization (code : string) : bool :=
  String.eqb code "struct char_traits<unsigned char> {".

(** Number of definitions of [char_traits<unsigned char>] in emitted text. *)
Definition definitions (out : list string) : nat :=
  length (List.filter opens_specialization out).

(** The file the patch applies to, as a member of a translation unit. *)
Definition source_path : string := "DebugStringConvertible.cpp".
Definition patched_file : source_file := SourceFile source_path patched.

(** The comment line the patch puts in front of the conditional. *)
Definition patch_comment : string :=
  "// char_traits<unsigned char> is now defined in the prefix header".

(** The names the text of the specialization mentions. *)
Definition block_names : list string :=
  flat_map (fun code => names_of (tokens code)) specialization_text.

(** No name of the list is a macro of the table. *)
Definition names_free (m : gmap string string) (names : list string) : bool :=
  forallb (fun x => negb (defined m x)) names.

(** The specialization as token lines, macros replaced under a table. *)
Definition specialization_replaced (m : gmap string string)
  : list (list token) :=
  map (fun code => replace_macros m (tokens code)) specialization_text.

Definition same_lines (a b : list string) : bool :=
  Nat.eqb (length a) (length b)
  && forallb (fun p => String.eqb (fst p) (snd p)) (combine a b).

(** A text that is another text with nothing but an [#ifndef] line put in
    front of it and an [#endif] line put behind it. *)
Definition is_pure_wrapper (inner outer : list string) : bool :=
  match outer with
  | first :: rest =>
      match parse_line first, rev rest with
      | LIfndef _, last :: body =>
          match parse_line last with
          | LEndif => same_lines (rev body) inner
          | _ => false
          end
      | _, _ => false
      end
  | [] => false
  end.

(** *** Nesting structure of raw lines *)

(** The raw lines that stand outside every conditional (the conditional
    directives themselves left out), and those inside one. *)
Fixpoint outside_conditional (depth : nat) (ls : list string) : list string :=
  match ls with
  | [] => []
  | s :: rest =>
      match parse_line s with
      | LIf _ | LIfdef _ | LIfndef _ => outside_conditional (S depth) rest
      | LEndif => outside_conditional (pred depth) rest
      | LElif _ | LElifdef _ | LElifndef _ | LElse => outside_conditional depth rest
      | _ =>
          match depth with
          | O => s :: outside_conditional depth rest
          | S _ => outside_conditional depth rest
          end
      end
  end.

Fixpoint inside_conditional (depth : nat) (ls : list string) : list string :=
  match ls with
  | [] => []
  | s :: rest =>
      match parse_line s with
      | LIf _ | LIfdef _ | LIfndef _ => inside_conditional (S depth) rest
      | LEndif => inside_conditional (pred depth) rest
      | LElif _ | LElifdef _ | LElifndef _ | LElse => inside_conditional depth rest
      | _ =>
          match depth with
          | O => inside_conditional depth rest
          | S _ => s :: inside_conditional depth rest
          end
      end
  end.

(** *** Protection against repeated inclusion *)

(** The two standard ways a header makes its second and later inclusions
    emit nothing. *)
Inductive protection : Type :=
  | PragmaOnce
  | IncludeGuard (g : string).

Definition protect (p : protection) (body : list line) : list line :=
  match p with
  | PragmaOnce => LPragmaOnce :: body
  | IncludeGuard g => LIfndef g :: LDefine g EmptyString :: body ++ [LEndif]
  end.

(** The patched file with a protection added to it. *)
Definition protected_file (p : protection) : source_file :=
  SourceFile source_path (protect p patched).

(** Whether a file carries one of the two protections itself. *)
Definition has_pragma_once (f : list line) : bool :=
  existsb (fun l => match l with LPragmaOnce => true | _ => false end) f.

Definition has_include_guard (f : list line) : bool :=
  match List.filter (fun l => match l with LBlank => false | _ => true end) f with
  | LIfndef g :: LDefine g' _ :: _ => String.eqb g g'
  | _ => false
  end.

(** *** Translation units of a build *)

(** A translation unit of the build: the macros of the command line, then
    the prefix header, then the patched file. *)
Record translation_unit : Type := Unit
  { command_line : gmap string string
  ; prefix_header : source_file }.

Definition tu_start (u : translation_unit) : tu_state :=
  TU (command_line u) ∅.

Definition after_prefix (u : translation_unit)
  : option (tu_state * list string) :=
  include (tu_start u) (prefix_header u).

Definition compile (u : translation_unit)
  : option (tu_state * list string) :=
  translate (tu_start u) [prefix_header u; patched_file].

(** Definedness of the guard where the patched file is reached. *)
Definition guard_state (u : translation_unit) : option bool :=
  match after_prefix u with
  | Some (st, _) => Some (defined (tu_macros st) guard)
  | None => None
  end.

(** The prefix header supplies the specialization exactly when it leaves
    the guard defined. *)
Definition prefix_contract (u : translation_unit) : bool :=
  match after_prefix u with
  | Some (st, out) =>
      Nat.eqb (definitions out) (if defined (tu_macros st) guard then 1 else 0)
  | None => false
  end.

(** A duplicate or a missing definition in the unit's text. *)
Definition definition_error (u : translation_unit) : bool :=
  match compile u with
  | Some (_, out) => negb (Nat.eqb (definitions out) 1)
  | None => false
  end.

Definition build_error (b : list translation_unit) : bool :=
  existsb definition_error b.

Definition same_state (x y : option bool) : bool :=
  match x, y with
  | Some a, Some b => Bool.eqb a b
  | None, None => true
  | _, _ => false
  end.

(** Two units of the build disagree on the definedness of the guard. *)
Definition inconsistent (b : list translation_unit) : bool :=
  existsb (fun u => existsb (fun v => negb (same_state (guard_state u) (guard_state v))) b) b.

(** Example inputs: a prefix header that defines the guard and supplies the
    specialization, and one that does neither. *)
Definition pch_header : source_file :=
  SourceFile "RCT-Folly-prefix.pch"
    (LPragmaOnce :: LDefine guard "1" :: original).

Definition plain_header : source_file :=
  SourceFile "Other-prefix.pch" [LText "typedef int BOOL;"].

Definition unit_with_pch : translation_unit := Unit ∅ pch_header.
Definition unit_without_pch : translation_unit := Unit ∅ plain_header.
Definition mixed_build : list translation_unit :=
  [unit_with_pch; unit_without_pch].

End Patch.

Export Patch.

(** ** The unpatched file and the block inside a larger file *)

Module Enclosing.

(** The file before the patch: the block of lines 8-19, unguarded. *)
Definition original_file : source_file := SourceFile source_path original.

(** The translation unit of [compile], with the unpatched file. *)
Definition compile_original (u : translation_unit)
  : option (tu_state * list string) :=
  translate (tu_start u) [prefix_header u; original_file].


End Enclosing.

Export Enclosing.

(** ** Evaluation lemmas *)

Section Evaluation.

Lemma original_lines :
  original =
  [ LText "namespace std {"; LText "template<>"
  ; LText "struct char_traits<unsigned char> {"
  ; LText "using char_type = unsigned char;"
  ; LText "using int_type = int;"
  ; LText "using off_type = streamoff;"
  ; LText "using pos_type = streampos;"
  ; LText "using state_type = mbstate_t;"
  ; LBlank; LBlank; LText "};"; LText "}" ].
Proof. vm_compute. reflexivity. Qed.

Lemma patched_lines :
  patched = LBlank :: LIfndef guard :: (original ++ [LEndif])%list.
Proof. vm_compute. reflexivity. Qed.

Lemma run_app (a b : list line) : forall st,
  run st (a ++ b) = match run st a with Some st' => run st' b | None => None end.
Proof.
  induction a as [|l a IH]; intros st; simpl; [reflexivity|].
  destruct (step st l) as [st'|]; [apply IH | reflexivity].
Qed.

Lemma run_plain m cs o (ls : list line) :
  forallb is_plain ls = true ->
  forall out,
  run (PP m cs out o) ls =
  Some (PP m cs (if active cs then out ++ plain_text ls else out) o).
Proof.
  induction ls as [|l ls IH]; intros Hp out.
  - simpl. rewrite app_nil_r. destruct (active cs); reflexivity.
  - simpl in Hp. apply andb_true_iff in Hp as [Hl Hp].
    destruct l; try discriminate Hl; cbn [run step conds macros emitted once].
    + rewrite (IH Hp). reflexivity.
    + destruct (active cs) eqn:Ha.
      * rewrite (IH Hp). cbn [plain_text flat_map].
        rewrite <- app_assoc. reflexivity.
      * rewrite (IH Hp). reflexivity.
Qed.

(** The original block leaves macros and conditionals alone and emits its
    text when it is live. *)
Lemma run_original m cs out o :
  run (PP m cs out o) original =
  Some (PP m cs (if active cs then out ++ specialization_text else out) o).
Proof.
  rewrite run_plain by (vm_compute; reflexivity).
  replace (plain_text original) with specialization_text
    by (vm_compute; reflexivity).
  reflexivity.
Qed.

Lemma run_cons st l (ls : list line) :
  run st (l :: ls) =
  match step st l with Some st' => run st' ls | None => None end.
Proof. reflexivity. Qed.

(** A block between [#ifndef x] and [#endif], for any body that keeps the
    conditionals it finds. *)
Lemma run_ifndef_block x (body : list line) m cs out o out' :
  (forall cs', run (PP m cs' out o) body =
     Some (PP m cs' (if active cs' then out' else out) o)) ->
  run (PP m cs out o) (LIfndef x :: body ++ [LEndif]) =
  Some (PP m cs (if negb (defined m x) && active cs then out' else out) o).
Proof.
  intros Hbody. rewrite run_cons.
  cbn [step conds macros emitted once].
  rewrite run_app, Hbody.
  cbn [run step conds macros emitted once active forallb taking].
  reflexivity.
Qed.

(** The patched block does the same, but only when the guard is undefined. *)
Lemma run_patched m cs out o :
  run (PP m cs out o) patched =
  Some (PP m cs
          (if negb (defined m guard) && active cs
           then out ++ specialization_text else out) o).
Proof.
  rewrite patched_lines, run_cons.
  cbn [step].
  apply run_ifndef_block. intros cs'. apply run_original.
Qed.

Lemma preprocess_original m :
  preprocess_file m original = Some (Result m specialization_text false).
Proof. unfold preprocess_file. rewrite run_original. reflexivity. Qed.

Lemma preprocess_patched m :
  preprocess_file m patched =
  Some (Result m (if defined m guard then [] else specialization_text) false).
Proof.
  unfold preprocess_file. rewrite run_patched.
  destruct (defined m guard); reflexivity.
Qed.

Lemma defined_true m x : defined m x = true <-> is_Some (m !! x).
Proof.
  unfold defined. destruct (m !! x) as [v|]; split; intros H;
    try reflexivity; try discriminate; eauto.
  destruct H as [v H]. discriminate.
Qed.

Lemma defined_false m x : defined m x = false <-> m !! x = None.
Proof.
  unfold defined. destruct (m !! x); split; intros H; congruence.
Qed.

Lemma definitions_app (a b : list string) :
  definitions (a ++ b) = definitions a + definitions b.
Proof. unfold definitions. rewrite List.filter_app, length_app. reflexivity. Qed.

Lemma definitions_specialization : definitions specialization_text = 1.
Proof. vm_compute. reflexivity. Qed.

(** Including the patched file: it changes nothing in the state of the
    translation unit and emits the specialization or nothing. *)
Lemma include_patched st :
  include st patched_file =
  Some (st, if decide (source_path ∈ tu_once st) then []
            else if defined (tu_macros st) guard then []
            else specialization_text).
Proof.
  unfold include, patched_file. cbn [path content].
  destruct (decide (source_path ∈ tu_once st)); [reflexivity|].
  rewrite preprocess_patched. cbn [r_macros r_text r_once].
  destruct st; reflexivity.
Qed.

(** *** The replaced text *)

Lemma run_replaced_cons st l (ls : list line) :
  run_replaced st (l :: ls) =
  match step st l with
  | Some st' =>
      match run_replaced st' ls with
      | Some (st'', out) => Some (st'', (replaced st l ++ out)%list)
      | None => None
      end
  | None => None
  end.
Proof. reflexivity. Qed.

Lemma run_replaced_app (a b : list line) : forall st,
  run_replaced st (a ++ b) =
  match run_replaced st a with
  | Some (st', out) =>
      match run_replaced st' b with
      | Some (st'', out') => Some (st'', (out ++ out')%list)
      | None => None
      end
  | None => None
  end.
Proof.
  induction a as [|l a IH]; intros st; cbn [app run_replaced].
  - destruct (run_replaced st b) as [[st' out]|]; reflexivity.
  - destruct (step st l) as [st1|]; [|reflexivity].
    rewrite IH. destruct (run_replaced st1 a) as [[st2 out]|]; [|reflexivity].
    destruct (run_replaced st2 b) as [[st3 out']|]; [|reflexivity].
    rewrite app_assoc. reflexivity.
Qed.

Lemma run_replaced_plain m cs o (ls : list line) :
  forallb is_plain ls = true ->
  forall out,
  run_replaced (PP m cs out o) ls =
  Some (PP m cs (if active cs then out ++ plain_text ls else out) o,
        if active cs
        then map (fun code => replace_macros m (tokens code)) (plain_text ls)
        else []).
Proof.
  induction ls as [|l ls IH]; intros Hp out.
  - cbn [run_replaced plain_text flat_map map]. rewrite app_nil_r.
    destruct (active cs); reflexivity.
  - simpl in Hp. apply andb_true_iff in Hp as [Hl Hp].
    destruct l; try discriminate Hl; rewrite run_replaced_cons;
      cbn [step replaced conds macros emitted once].
    + rewrite (IH Hp). reflexivity.
    + destruct (active cs) eqn:Ha.
      * rewrite (IH Hp). cbn [plain_text flat_map map app].
        rewrite <- app_assoc. reflexivity.
      * rewrite (IH Hp). reflexivity.
Qed.

Lemma run_replaced_original m cs out o :
  run_replaced (PP m cs out o) original =
  Some (PP m cs (if active cs then out ++ specialization_text else out) o,
        if active cs then specialization_replaced m else []).
Proof.
  rewrite run_replaced_plain by (vm_compute; reflexivity).
  replace (plain_text original) with specialization_text
    by (vm_compute; reflexivity).
  reflexivity.
Qed.

Lemma run_replaced_ifndef_block x (body : list line) m cs out o out' toks :
  (forall cs', run_replaced (PP m cs' out o) body =
     Some (PP m cs' (if active cs' then out' else out) o,
           if active cs' then toks else [])) ->
  run_replaced (PP m cs out o) (LIfndef x :: body ++ [LEndif]) =
  Some (PP m cs (if negb (defined m x) && active cs then out' else out) o,
        if negb (defined m x) && active cs then toks else []).
Proof.
  intros Hbody. rewrite run_replaced_cons.
  cbn [step replaced conds macros emitted once].
  rewrite run_replaced_app, Hbody, run_replaced_cons.
  cbn [run_replaced step replaced conds macros emitted once
       active forallb taking app].
  rewrite app_nil_r. reflexivity.
Qed.

Lemma run_replaced_patched m cs out o :
  run_replaced (PP m cs out o) patched =
  Some (PP m cs
          (if negb (defined m guard) && active cs
           then out ++ specialization_text else out) o,
        if negb (defined m guard) && active cs
        then specialization_replaced m else []).
Proof.
  rewrite patched_lines, run_replaced_cons.
  cbn [step replaced app].
  rewrite (run_replaced_ifndef_block guard original m cs out o
             (out ++ specialization_text) (specialization_replaced m)).
  - reflexivity.
  - intros cs'. apply run_replaced_original.
Qed.

Lemma cpp_output_patched m :
  cpp_output m patched =
  Some (if defined m guard then [] else specialization_replaced m).
Proof.
  unfold cpp_output. rewrite run_replaced_patched.
  destruct (defined m guard); reflexivity.
Qed.

(** *** Macro replacement *)

(** Tokens that mention no macro of the table are left as they are. *)
Lemma replace_macros_free m (ts : list token) :
  names_free m (names_of ts) = true -> replace_macros m ts = ts.
Proof.
  unfold replace_macros, names_free. cbn [replace_in].
  induction ts as [|t ts IH]; intros Hfree; [reflexivity|].
  cbn [flat_map]. destruct t as [x| | |]; cbn [names_of flat_map app] in Hfree;
    try (rewrite (IH Hfree); reflexivity).
  cbn [forallb] in Hfree. apply andb_true_iff in Hfree as [Hx Hfree].
  apply negb_true_iff, defined_false in Hx.
  rewrite Hx, (IH Hfree). reflexivity.
Qed.

Lemma replace_lines_free m (codes : list string) :
  names_free m (flat_map (fun code => names_of (tokens code)) codes) = true ->
  map (fun code => replace_macros m (tokens code)) codes = map tokens codes.
Proof.
  unfold names_free.
  induction codes as [|code codes IH]; intros Hfree; [reflexivity|].
  cbn [flat_map] in Hfree. rewrite forallb_app in Hfree.
  apply andb_true_iff in Hfree as [Hc Hfree].
  cbn [map]. rewrite (replace_macros_free m _ Hc), (IH Hfree). reflexivity.
Qed.

(** The levels of [replace_macros] are all that replacement can use: more
    fuel changes nothing. *)
Lemma replace_in_enough (fuel : nat) : forall m (ts : list token),
  size m < fuel -> replace_in fuel m ts = replace_macros m ts.
Proof.
  induction fuel as [|fuel IH]; intros m ts Hsize; [lia|].
  unfold replace_macros. cbn [replace_in].
  apply flat_map_ext. intros [x| | |]; try reflexivity.
  destruct (m !! x) as [body|] eqn:Hx; [|reflexivity].
  assert (size m = S (size (delete x m))) as Hm.
  { rewrite map_size_delete, Hx.
    assert (size m <> 0) as Hne.
    { intros H0. apply map_size_empty_iff in H0. subst m.
      rewrite lookup_empty in Hx. discriminate. }
    lia. }
  rewrite IH by lia. rewrite Hm. reflexivity.
Qed.

End Evaluation.

(** ** The guard undefined, the guard defined *)

Section Guard.

(** C1. In a translation unit where [_RCT_FOLLY_PREFIX_PCH] is undefined,
    the patched file emits the [char_traits<unsigned char>] specialization
    exactly once: its output is the text of the specialization, which holds
    one definition, and the macro table is left as it was. *)
Theorem guard_undefined_emits_once (m : gmap string string) :
  m !! guard = None ->
  exists out,
    preprocess_file m patched = Some (Result m out false)
    /\ out = specialization_text
    /\ definitions out = 1.
Proof.
  intros Hm. exists specialization_text.
  rewrite preprocess_patched.
  apply defined_false in Hm. rewrite Hm.
  split; [reflexivity|]. split; [reflexivity|].
  apply definitions_specialization.
Qed.

Lemma guard_undefined_emits_once_witness :
  exists out,
    preprocess_file ∅ patched = Some (Result ∅ out false)
    /\ out = specialization_text
    /\ definitions out = 1.
Proof. apply (guard_undefined_emits_once ∅). reflexivity. Defined.

(** C2. In a translation unit where [_RCT_FOLLY_PREFIX_PCH] is defined,
    including the patched file emits the specialization zero times: the
    number of definitions in the unit stays what it was before the file, so
    the file cannot be the cause of a duplicate definition. *)
Theorem guard_defined_emits_nothing (st : tu_state) (before : list string) :
  is_Some (tu_macros st !! guard) ->
  exists out,
    include st patched_file = Some (st, out)
    /\ definitions out = 0
    /\ definitions (before ++ out) = definitions before.
Proof.
  intros Hg. apply defined_true in Hg.
  exists []. rewrite include_patched, Hg.
  split; [destruct (decide _); reflexivity|].
  split; [reflexivity|]. rewrite app_nil_r. reflexivity.
Qed.

Lemma guard_defined_emits_nothing_witness :
  exists out,
    include (TU {[ guard := "1" ]} ∅) patched_file
      = Some (TU {[ guard := "1" ]} ∅, out)
    /\ definitions out = 0
    /\ definitions (specialization_text ++ out)%list = definitions specialization_text.
Proof.
  apply (guard_defined_emits_nothing (TU {[ guard := "1" ]} ∅)).
  simpl. rewrite lookup_singleton_eq. eauto.
Defined.

(** C7, as amended.  The guard tests definedness only: two macro tables
    that agree on whether [_RCT_FOLLY_PREFIX_PCH] is defined make the
    patched file select the same source lines, whatever value the guard has
    and whatever else the tables hold.  After macro replacement the output
    is the same too when the guard is defined (nothing is emitted), and when
    neither table defines a name that the specialization mentions. *)
Theorem guard_tests_definedness_only (m1 m2 : gmap string string) :
  (is_Some (m1 !! guard) <-> is_Some (m2 !! guard)) ->
  emit m1 patched = emit m2 patched
  /\ (is_Some (m1 !! guard) ->
      cpp_output m1 patched = Some [] /\ cpp_output m2 patched = Some [])
  /\ (names_free m1 block_names = true ->
      names_free m2 block_names = true ->
      cpp_output m1 patched = cpp_output m2 patched).
Proof.
  intros Hagree.
  assert (defined m1 guard = defined m2 guard) as Hsame.
  { destruct (defined m1 guard) eqn:H1, (defined m2 guard) eqn:H2;
      try reflexivity.
    - apply defined_true, Hagree, defined_true in H1. congruence.
    - apply defined_true, Hagree, defined_true in H2. congruence. }
  split; [|split].
  - unfold emit. rewrite !preprocess_patched, Hsame. reflexivity.
  - intros Hg. apply defined_true in Hg.
    rewrite !cpp_output_patched, <- Hsame, Hg. split; reflexivity.
  - intros Hf1 Hf2. rewrite !cpp_output_patched, Hsame.
    destruct (defined m2 guard); [reflexivity|].
    unfold specialization_replaced, block_names in *.
    rewrite (replace_lines_free m1 _ Hf1), (replace_lines_free m2 _ Hf2).
    reflexivity.
Qed.

Lemma guard_tests_definedness_only_witness :
  emit {[ "NDEBUG" := "1" ]} patched = emit ∅ patched
  /\ cpp_output {[ "NDEBUG" := "1" ]} patched = cpp_output ∅ patched.
Proof.
  destruct (guard_tests_definedness_only {[ "NDEBUG" := "1" ]} ∅)
    as (Hlines & _ & Hout).
  - split; intros [v Hv]; vm_compute in Hv; discriminate.
  - split; [exact Hlines|]. apply Hout; vm_compute; reflexivity.
Defined.

(** C7, as stated, fails: the two tables below agree on the guard (it is
    undefined in both), yet the output differs after macro replacement,
    because one of them defines [streamoff], a name of line 32. *)
Lemma other_symbol_changes_output :
  (is_Some (({[ "streamoff" := "long" ]} : gmap string string) !! guard)
   <-> is_Some ((∅ : gmap string string) !! guard))
  /\ cpp_output {[ "streamoff" := "long" ]} patched <> cpp_output ∅ patched
  /\ (exists out, cpp_output {[ "streamoff" := "long" ]} patched = Some out
        /\ In (tokens "using off_type = long;") out)
  /\ (exists out, cpp_output ∅ patched = Some out
        /\ In (tokens "using off_type = streamoff;") out).
Proof.
  split; [split; intros [v Hv]; vm_compute in Hv; discriminate|].
  split; [vm_compute; discriminate|].
  split; eexists; (split; [vm_compute; reflexivity|]);
    do 5 right; left; vm_compute; reflexivity.
Qed.

(** C8. With the guard defined the patched code adds nothing: no text, no
    macro, no conditional left open.  The only raw line outside the
    conditional is the comment, which is blank to the preprocessor; the
    whole [namespace std] block, braces included, is inside. *)
Theorem guard_defined_frame (m : gmap string string) :
  is_Some (m !! guard) ->
  preprocess_file m patched = Some (Result m [] false)
  /\ outside_conditional 0 Source.patched_code = [patch_comment]
  /\ parse_line patch_comment = LBlank
  /\ inside_conditional 0 Source.patched_code = Source.original_code.
Proof.
  intros Hg. apply defined_true in Hg.
  rewrite preprocess_patched, Hg.
  repeat split; vm_compute; reflexivity.
Qed.

Lemma guard_defined_frame_witness :
  preprocess_file {[ guard := "1" ]} patched
    = Some (Result {[ guard := "1" ]} [] false)
  /\ outside_conditional 0 Source.patched_code = [patch_comment]
  /\ parse_line patch_comment = LBlank
  /\ inside_conditional 0 Source.patched_code = Source.original_code.
Proof.
  apply (guard_defined_frame {[ guard := "1" ]}).
  rewrite lookup_singleton_eq. eauto.
Defined.

End Guard.

(** ** The patch against the original *)

Section Refinement.

(** C4, as amended.  With the guard undefined the patched code yields
    exactly the declarations of the original code: both preprocess to the
    text of the specialization.  The body of the specialization is
    untouched.  The patch is the conditional
    wrapper, an [#ifndef] line in front and an [#endif] line behind, and one
    comment line added in front of the [#ifndef] (line 25), which is blank
    to the preprocessor; there is no other textual change. *)
Theorem patch_wraps_original_behind_comment (m : gmap string string) :
  m !! guard = None ->
  preprocess_file m patched = Some (Result m specialization_text false)
  /\ preprocess_file m original = Some (Result m specialization_text false)
  /\ Source.patched_code =
       (patch_comment :: "#ifndef _RCT_FOLLY_PREFIX_PCH"
        :: Source.original_code ++ ["#endif // _RCT_FOLLY_PREFIX_PCH"])%list
  /\ is_pure_wrapper Source.original_code (tl Source.patched_code) = true
  /\ parse_line patch_comment = LBlank.
Proof.
  intros Hm. apply defined_false in Hm.
  rewrite preprocess_patched, preprocess_original, Hm.
  split; [reflexivity|]. split; [reflexivity|].
  split; [vm_compute; reflexivity|].
  split; vm_compute; reflexivity.
Qed.

Lemma patch_wraps_original_behind_comment_witness :
  preprocess_file {[ "NDEBUG" := "1" ]} patched
    = Some (Result {[ "NDEBUG" := "1" ]} specialization_text false)
  /\ preprocess_file {[ "NDEBUG" := "1" ]} original
    = Some (Result {[ "NDEBUG" := "1" ]} specialization_text false)
  /\ Source.patched_code =
       (patch_comment :: "#ifndef _RCT_FOLLY_PREFIX_PCH"
        :: Source.original_code ++ ["#endif // _RCT_FOLLY_PREFIX_PCH"])%list
  /\ is_pure_wrapper Source.original_code (tl Source.patched_code) = true
  /\ parse_line patch_comment = LBlank.
Proof.
  apply (patch_wraps_original_behind_comment {[ "NDEBUG" := "1" ]}).
  vm_compute. reflexivity.
Defined.

(** C4, as stated, fails on its last part: the patched text is not the
    original text between an [#ifndef] line and an [#endif] line and nothing
    else, because its first line is the added comment. *)
Lemma patch_not_pure_wrapper :
  is_pure_wrapper Source.original_code Source.patched_code = false
  /\ hd_error Source.patched_code = Some patch_comment
  /\ ~ In patch_comment Source.original_code.
Proof.
  split; [vm_compute; reflexivity|]. split; [reflexivity|].
  vm_compute. intros H.
  repeat (destruct H as [H|H]; [discriminate H|]). exact H.
Qed.

End Refinement.

(** ** Repeated inclusion *)

Section Inclusion.

Lemma preprocess_pragma_once m :
  preprocess_file m (protect PragmaOnce patched) =
  Some (Result m (if defined m guard then [] else specialization_text) true).
Proof.
  unfold preprocess_file, protect. rewrite run_cons.
  cbn [step conds macros emitted once active forallb].
  rewrite run_patched. destruct (defined m guard); reflexivity.
Qed.

Lemma preprocess_include_guard m g :
  preprocess_file m (protect (IncludeGuard g) patched) =
  Some (if defined m g then Result m [] false
        else Result (<[g := EmptyString]> m)
               (if defined (<[g := EmptyString]> m) guard
                then [] else specialization_text) false).
Proof.
  unfold preprocess_file, protect. rewrite run_cons.
  cbn [step conds macros emitted once].
  destruct (defined m g); cbn [negb]; rewrite run_cons;
    cbn [step conds macros emitted once active forallb taking andb];
    rewrite run_app, run_patched;
    cbn [run step conds macros emitted once active forallb taking negb andb].
  - rewrite andb_false_r. reflexivity.
  - destruct (defined _ guard); reflexivity.
Qed.

Lemma definitions_guarded_text (b : bool) :
  definitions (if b then [] else specialization_text) <= 1.
Proof.
  destruct b; [apply Nat.le_0_l|].
  rewrite definitions_specialization. apply Nat.le_refl.
Qed.

Lemma include_skip (st : tu_state) (f : source_file) :
  path f ∈ tu_once st -> include st f = Some (st, []).
Proof. intros Hin. unfold include. rewrite decide_True by exact Hin. reflexivity. Qed.

Lemma include_enter (st : tu_state) (f : source_file) :
  path f ∉ tu_once st ->
  include st f =
  match preprocess_file (tu_macros st) (content f) with
  | Some r =>
      Some (TU (r_macros r)
               (if r_once r then {[ path f ]} ∪ tu_once st else tu_once st),
            r_text r)
  | None => None
  end.
Proof. intros Hout. unfold include. rewrite decide_False by exact Hout. reflexivity. Qed.

(** A protected file: its first inclusion emits at most one definition and
    leaves a state in which a further inclusion emits nothing. *)
Lemma include_protected (p : protection) (st : tu_state) :
  exists st1 out1,
    include st (protected_file p) = Some (st1, out1)
    /\ definitions out1 <= 1
    /\ include st1 (protected_file p) = Some (st1, []).
Proof.
  destruct (decide (path (protected_file p) ∈ tu_once st)) as [Hin|Hout].
  { exists st, []. rewrite (include_skip _ _ Hin).
    split; [reflexivity|]. split; [apply (definitions_guarded_text true)|].
    reflexivity. }
  rewrite (include_enter _ _ Hout).
  destruct st as [m os]. cbn [tu_macros tu_once] in *.
  destruct p as [|g]; unfold protected_file in *; cbn [path content] in *.
  - rewrite preprocess_pragma_once. cbn [r_macros r_text r_once].
    eexists _, _. split; [reflexivity|].
    split; [apply definitions_guarded_text|].
    apply include_skip. cbn [path tu_once]. set_solver.
  - rewrite preprocess_include_guard.
    destruct (defined m g) eqn:Hg; cbn [r_macros r_text r_once].
    + eexists _, _. split; [reflexivity|].
      split; [apply (definitions_guarded_text true)|].
      rewrite include_enter by exact Hout. cbn [tu_macros tu_once path content].
      rewrite preprocess_include_guard, Hg. reflexivity.
    + eexists _, _. split; [reflexivity|].
      split; [apply definitions_guarded_text|].
      rewrite include_enter by exact Hout. cbn [tu_macros tu_once path content].
      rewrite preprocess_include_guard.
      assert (defined (<[g := EmptyString]> m) g = true) as ->.
      { apply defined_true. rewrite lookup_insert_eq. eauto. }
      reflexivity.
Qed.

(** Once an inclusion of a file is silent and leaves the state as it is,
    any number of further inclusions does the same. *)
Lemma translate_repeat_silent (f : source_file) (st : tu_state) (n : nat) :
  include st f = Some (st, []) ->
  translate st (repeat f n) = Some (st, []).
Proof.
  intros Hf. induction n as [|n IH]; cbn [repeat translate]; [reflexivity|].
  rewrite Hf, IH. reflexivity.
Qed.

(** C3. Under either standard protection against repeated inclusion
    ([#pragma once], or an include guard of any name), including the
    patched file two or more times in one translation unit gives what one
    inclusion gives, and the text holds at most one definition of the
    specialization: no redefinition. *)
Theorem protected_inclusion_idempotent
    (p : protection) (st : tu_state) (n : nat) :
  2 <= n ->
  exists st' out,
    translate st (repeat (protected_file p) n) = Some (st', out)
    /\ translate st [protected_file p] = Some (st', out)
    /\ definitions out <= 1.
Proof.
  intros Hn. destruct n as [|n]; [lia|].
  destruct (include_protected p st) as (st1 & out1 & H1 & Hdef & Hrest).
  exists st1, out1. cbn [repeat translate].
  rewrite H1, (translate_repeat_silent _ _ n Hrest).
  rewrite app_nil_r. repeat split; assumption.
Qed.

Lemma protected_inclusion_idempotent_witness :
  exists st' out,
    translate (TU ∅ ∅) (repeat (protected_file (IncludeGuard "PATCH_H")) 3)
      = Some (st', out)
    /\ translate (TU ∅ ∅) [protected_file (IncludeGuard "PATCH_H")]
      = Some (st', out)
    /\ definitions out <= 1.
Proof.
  apply (protected_inclusion_idempotent (IncludeGuard "PATCH_H") (TU ∅ ∅) 3).
  lia.
Defined.

(** C9. The patched code has no include guard and no [#pragma once] of
    its own: included twice with the guard undefined both times, it emits
    the specialization twice, that is two definitions in one translation
    unit. *)
Theorem unprotected_double_inclusion (m : gmap string string) :
  m !! guard = None ->
  has_pragma_once patched = false
  /\ has_include_guard patched = false
  /\ translate (TU m ∅) [patched_file; patched_file]
     = Some (TU m ∅, (specialization_text ++ specialization_text)%list)
  /\ definitions ((specialization_text ++ specialization_text)%list) = 2.
Proof.
  intros Hm. apply defined_false in Hm.
  split; [vm_compute; reflexivity|]. split; [vm_compute; reflexivity|].
  split; [|vm_compute; reflexivity].
  cbn [translate]. rewrite include_patched. cbn [tu_once tu_macros].
  rewrite Hm, decide_False by set_solver.
  rewrite include_patched. cbn [tu_once tu_macros].
  rewrite Hm, decide_False by set_solver.
  rewrite app_nil_r. reflexivity.
Qed.

Lemma unprotected_double_inclusion_witness :
  has_pragma_once patched = false
  /\ has_include_guard patched = false
  /\ translate (TU ∅ ∅) [patched_file; patched_file]
     = Some (TU ∅ ∅, (specialization_text ++ specialization_text)%list)
  /\ definitions ((specialization_text ++ specialization_text)%list) = 2.
Proof. apply (unprotected_double_inclusion ∅). reflexivity. Defined.

End Inclusion.

(** ** The prefix header and the build *)

Section Build.

Lemma compile_unfold (u : translation_unit) st1 out1 :
  after_prefix u = Some (st1, out1) ->
  compile u =
  Some (st1, (out1 ++ (if decide (source_path ∈ tu_once st1) then []
                       else if defined (tu_macros st1) guard then []
                       else specialization_text))%list).
Proof.
  unfold after_prefix, compile. intros Hp. cbn [translate].
  rewrite Hp, include_patched, app_nil_r. reflexivity.
Qed.

(** C6. In a translation unit where the guard is defined when the patched
    file is reached, the patched file supplies nothing: the text of the
    unit is the text of the prefix header, so the unit holds a definition
    of the specialization only if the prefix header supplied it. *)
Theorem guard_defined_definitions_from_prefix
    (u : translation_unit) (st1 : tu_state) (out1 : list string) :
  after_prefix u = Some (st1, out1) ->
  is_Some (tu_macros st1 !! guard) ->
  compile u = Some (st1, out1)
  /\ include st1 patched_file = Some (st1, [])
  /\ (forall st out, compile u = Some (st, out) ->
        definitions out = definitions out1).
Proof.
  intros Hp Hg. apply defined_true in Hg.
  assert (compile u = Some (st1, out1)) as Hc.
  { rewrite (compile_unfold u st1 out1 Hp), Hg.
    destruct (decide _); rewrite app_nil_r; reflexivity. }
  split; [exact Hc|]. split.
  - rewrite include_patched, Hg. destruct (decide _); reflexivity.
  - intros st out Hc'. rewrite Hc in Hc'. congruence.
Qed.

Lemma guard_defined_definitions_from_prefix_witness :
  compile unit_with_pch
    = Some (TU {[ guard := "1" ]} {[ "RCT-Folly-prefix.pch" ]},
            specialization_text)
  /\ include (TU {[ guard := "1" ]} {[ "RCT-Folly-prefix.pch" ]}) patched_file
    = Some (TU {[ guard := "1" ]} {[ "RCT-Folly-prefix.pch" ]}, [])
  /\ (forall st out, compile unit_with_pch = Some (st, out) ->
        definitions out = definitions specialization_text).
Proof.
  apply (guard_defined_definitions_from_prefix unit_with_pch).
  - vm_compute. reflexivity.
  - cbn [tu_macros]. rewrite lookup_singleton_eq. eauto.
Defined.

Lemma after_prefix_once (u : translation_unit) st1 out1 :
  after_prefix u = Some (st1, out1) ->
  path (prefix_header u) <> source_path ->
  source_path ∉ tu_once st1.
Proof.
  unfold after_prefix, include, tu_start. cbn [tu_once tu_macros].
  destruct (decide (path (prefix_header u) ∈ (∅ : gset string)));
    [set_solver|].
  destruct (preprocess_file _ _) as [r|]; [|discriminate].
  intros Heq Hne. inversion Heq; subst. cbn [tu_once].
  destruct (r_once r);
    rewrite ?elem_of_union, ?elem_of_singleton, ?elem_of_empty;
    intuition congruence.
Qed.

(** One unit under the contract holds exactly one definition. *)
Lemma contract_unit (u : translation_unit) :
  prefix_contract u = true ->
  path (prefix_header u) <> source_path ->
  (exists st out, compile u = Some (st, out) /\ definitions out = 1)
  /\ definition_error u = false.
Proof.
  unfold prefix_contract, definition_error. intros Hc Hne.
  destruct (after_prefix u) as [[st1 out1]|] eqn:Hp; [|discriminate].
  apply Nat.eqb_eq in Hc.
  pose proof (after_prefix_once u st1 out1 Hp Hne) as Hout.
  rewrite (compile_unfold u st1 out1 Hp).
  destruct (decide (source_path ∈ tu_once st1)); [contradiction|].
  assert (definitions
            (out1 ++ (if defined (tu_macros st1) guard then []
                      else specialization_text)) = 1) as Hone.
  { rewrite definitions_app, Hc.
    destruct (defined (tu_macros st1) guard); vm_compute; reflexivity. }
  split; [eauto|]. rewrite Hone. reflexivity.
Qed.

(** C5, as amended.  When every prefix header supplies the specialization
    exactly when it leaves the guard defined, every translation unit (prefix
    header, then the patched file) holds exactly one definition of the
    specialization, whether or not the units agree on the guard: the build
    has neither a duplicate nor a missing definition. *)
Theorem contract_gives_one_definition (b : list translation_unit) :
  Forall (fun u => prefix_contract u = true) b ->
  Forall (fun u => path (prefix_header u) <> source_path) b ->
  Forall (fun u => exists st out,
            compile u = Some (st, out) /\ definitions out = 1) b
  /\ build_error b = false.
Proof.
  intros Hc Hp. induction b as [|u b IH].
  - split; [constructor | reflexivity].
  - inversion Hc as [|? ? Hcu Hcb]; inversion Hp as [|? ? Hpu Hpb]; subst.
    destruct (IH Hcb Hpb) as [IH1 IH2].
    destruct (contract_unit u Hcu Hpu) as [Hu He].
    split; [constructor; assumption|].
    unfold build_error in *. cbn [existsb]. rewrite He, IH2. reflexivity.
Qed.

Lemma contract_gives_one_definition_witness :
  Forall (fun u => exists st out,
            compile u = Some (st, out) /\ definitions out = 1) mixed_build
  /\ build_error mixed_build = false.
Proof.
  apply (contract_gives_one_definition mixed_build).
  - repeat constructor.
  - repeat constructor; vm_compute; discriminate.
Defined.

(** C5, as stated, fails: in the build of one unit with the prefix header
    that defines the guard and one unit without it, every prefix header
    keeps the contract and the units disagree on the guard, yet no unit
    has a duplicate or a missing definition. *)
Lemma inconsistent_build_without_error :
  Forall (fun u => prefix_contract u = true) mixed_build
  /\ inconsistent mixed_build = true
  /\ build_error mixed_build = false
  /\ ~ (build_error mixed_build = true <-> inconsistent mixed_build = true).
Proof.
  assert (inconsistent mixed_build = true) as Hi by (vm_compute; reflexivity).
  assert (build_error mixed_build = false) as He by (vm_compute; reflexivity).
  split; [repeat constructor|]. split; [exact Hi|]. split; [exact He|].
  intros [_ H]. rewrite He in H. specialize (H Hi). discriminate.
Qed.

End Build.

(** ** The block in context *)

Section InContext.

Lemma include_original (st : tu_state) :
  source_path ∉ tu_once st ->
  include st original_file = Some (st, specialization_text).
Proof.
  intros Hout. unfold original_file.
  rewrite include_enter by exact Hout. cbn [path content].
  rewrite preprocess_original. destruct st; reflexivity.
Qed.


(** X1. The defect the patch removes.  In a unit whose prefix header
    supplies the specialization and leaves the guard defined, the unpatched
    file adds a second definition; the patched file leaves exactly one. *)
Theorem original_duplicates_after_prefix (u : translation_unit) :
  prefix_contract u = true ->
  guard_state u = Some true ->
  path (prefix_header u) <> source_path ->
  (exists st out, compile_original u = Some (st, out) /\ definitions out = 2)
  /\ (exists st out, compile u = Some (st, out) /\ definitions out = 1).
Proof.
  intros Hc Hg Hne. split; [|apply (contract_unit u Hc Hne)].
  unfold prefix_contract in Hc. unfold guard_state in Hg.
  destruct (after_prefix u) as [[st1 out1]|] eqn:Hp; [|discriminate].
  injection Hg as Hg. rewrite Hg in Hc. apply Nat.eqb_eq in Hc.
  pose proof (after_prefix_once u st1 out1 Hp Hne) as Hout.
  unfold compile_original. unfold after_prefix in Hp.
  cbn [translate]. rewrite Hp, (include_original st1 Hout), app_nil_r.
  eexists _, _. split; [reflexivity|].
  rewrite definitions_app, Hc, definitions_specialization. reflexivity.
Qed.

Lemma original_duplicates_after_prefix_witness :
  (exists st out,
     compile_original unit_with_pch = Some (st, out) /\ definitions out = 2)
  /\ (exists st out,
        compile unit_with_pch = Some (st, out) /\ definitions out = 1).
Proof.
  apply (original_duplicates_after_prefix unit_with_pch).
  - vm_compute. reflexivity.
  - vm_compute. reflexivity.
  - vm_compute. discriminate.
Defined.





(** The selection of a later branch: with [X] undefined, [#elif 1] is the
    branch taken, so an [#undef] of the guard in it reaches the block. *)
Example elif_branch_is_selected :
  emit {[ guard := "1" ]}
    (parse_file ["#ifdef X"; "#elif 1"; "#undef _RCT_FOLLY_PREFIX_PCH";
                 "#endif"] ++ patched)
  = Some specialization_text
  /\ emit {[ guard := "1" ]}
    (parse_file ["#ifdef X"; "#elif 1"; "#undef _RCT_FOLLY_PREFIX_PCH";
                 "#endif"])
  = Some [].
Proof. split; vm_compute; reflexivity. Qed.

End InContext.

(** ** Directives around the block *)

Section Around.

(** X4. A [#define] of the guard right before the block suppresses it for
    every replacement text, the empty one included; an [#undef] of the
    guard right before the block makes it emit the specialization from
    every macro table. *)
Theorem define_suppresses_undef_restores (m : gmap string string) (v : string) :
  preprocess_file m (LDefine guard v :: patched)
    = Some (Result (<[guard := v]> m) [] false)
  /\ preprocess_file m (LUndef guard :: patched)
    = Some (Result (delete guard m) specialization_text false).
Proof.
  unfold preprocess_file. rewrite !run_cons.
  cbn [step conds macros emitted once active forallb].
  rewrite !run_patched.
  assert (defined (<[guard := v]> m) guard = true) as ->.
  { apply defined_true. rewrite lookup_insert_eq. eauto. }
  assert (defined (delete guard m) guard = false) as ->.
  { apply defined_false. apply lookup_delete_eq. }
  split; reflexivity.
Qed.

(** X5. The block nested in another conditional emits the specialization
    exactly when the enclosing branch is selected and the guard is
    undefined: inside [#ifdef x] that needs [x] defined, after its [#else]
    that needs [x] undefined.  The macro table is unchanged. *)
Theorem nested_block_needs_both (m : gmap string string) (x : string) :
  preprocess_file m (LIfdef x :: patched ++ [LEndif])
    = Some (Result m (if defined m x && negb (defined m guard)
                      then specialization_text else []) false)
  /\ preprocess_file m (LIfdef x :: LElse :: patched ++ [LEndif])
    = Some (Result m (if negb (defined m x) && negb (defined m guard)
                      then specialization_text else []) false).
Proof.
  unfold preprocess_file. split.
  - rewrite run_cons. cbn [step conds macros emitted once].
    rewrite run_app, run_patched.
    cbn [run step conds macros emitted once active forallb taking].
    destruct (defined m x), (defined m guard); reflexivity.
  - rewrite run_cons. cbn [step conds macros emitted once].
    rewrite run_cons. cbn [step conds macros emitted once].
    rewrite run_app, run_patched.
    cbn [run step conds macros emitted once active forallb taking].
    destruct (defined m x), (defined m guard); reflexivity.
Qed.

(** X6. Without protection every inclusion counts: [n] inclusions of the
    patched file in one translation unit leave the state as it was and
    give [n] definitions when the guard is undefined, none when it is
    defined. *)
Theorem unprotected_inclusions_count (m : gmap string string) (n : nat) :
  exists out,
    translate (TU m ∅) (repeat patched_file n) = Some (TU m ∅, out)
    /\ definitions out = if defined m guard then 0 else n.
Proof.
  induction n as [|n (out & Ht & Hd)].
  - exists []. split; [reflexivity|]. destruct (defined m guard); reflexivity.
  - cbn [repeat translate]. rewrite include_patched, Ht.
    cbn [tu_once tu_macros]. rewrite decide_False by set_solver.
    eexists. split; [reflexivity|].
    rewrite definitions_app, Hd.
    destruct (defined m guard); [reflexivity|].
    rewrite definitions_specialization. reflexivity.
Qed.

(** X7. The missing definition.  In a unit where the guard is defined
    when the patched file is reached but the prefix header supplied no
    definition, the patched file supplies none either: the unit is left
    without the specialization. *)
Theorem guard_without_definition_is_missing
    (u : translation_unit) (st1 : tu_state) (out1 : list string) :
  after_prefix u = Some (st1, out1) ->
  is_Some (tu_macros st1 !! guard) ->
  definitions out1 = 0 ->
  compile u = Some (st1, out1) /\ definition_error u = true.
Proof.
  intros Hp Hg H0. apply defined_true in Hg.
  assert (compile u = Some (st1, out1)) as Hc.
  { rewrite (compile_unfold u st1 out1 Hp), Hg.
    destruct (decide _); rewrite app_nil_r; reflexivity. }
  split; [exact Hc|]. unfold definition_error. rewrite Hc, H0. reflexivity.
Qed.

Lemma guard_without_definition_is_missing_witness :
  compile (Unit {[ guard := "1" ]} plain_header)
    = Some (TU {[ guard := "1" ]} ∅, ["typedef int BOOL;"])
  /\ definition_error (Unit {[ guard := "1" ]} plain_header) = true.
Proof.
  apply (guard_without_definition_is_missing
           (Unit {[ guard := "1" ]} plain_header)).
  - vm_compute. reflexivity.
  - cbn [tu_macros]. rewrite lookup_singleton_eq. eauto.
  - vm_compute. reflexivity.
Defined.

End Around.
